(** * Grad-CAM heat maps: a shallow embedding of [utils/heatmap.py]

    The class [heatmap] has two methods.  [make_heatmap] runs a trained
    classifier once, takes the gradient of the top class score with respect
    to the activation of a named convolutional layer, pools that gradient per
    channel, weights the activation with it and normalises the result.
    [image] overlays a heat map on a picture with pyplot and saves the figure.

    Scalars.  TensorFlow computes in binary floating point.  The embedding
    keeps the special values of IEEE 754 (the infinities and NaN) and the
    rules by which they arise and propagate, and computes finite values
    exactly, as rationals kept in lowest terms: rounding and overflow are not
    modelled, and zero has no sign. *)

From Stdlib Require Import QArith Qminmax Lqa Lia Ascii String.
From stdpp Require Import base list strings gmap.

Open Scope Q_scope.

(** ** Scalars *)

Inductive fl : Type :=
  | Fin (q : Q)
  | PInf
  | NInf
  | NaN.

(** The sign of a value as a comparison with zero; NaN has none and is
    given [Eq] like zero, every use below checks for NaN first. *)
Definition fsign (x : fl) : comparison :=
  match x with
  | Fin q => q ?= 0
  | PInf => Gt
  | NInf => Lt
  | NaN => Eq
  end.

Definition sign_mul (s t : comparison) : comparison :=
  match s, t with
  | Eq, _ | _, Eq => Eq
  | Gt, Gt | Lt, Lt => Gt
  | Gt, Lt | Lt, Gt => Lt
  end.

(** The infinity of a given sign; the sign [Eq] stands for the invalid
    operations (0 * inf, 0 / 0) and gives NaN. *)
Definition finf (s : comparison) : fl :=
  match s with
  | Gt => PInf
  | Lt => NInf
  | Eq => NaN
  end.

Definition fadd (x y : fl) : fl :=
  match x, y with
  | NaN, _ | _, NaN => NaN
  | Fin a, Fin b => Fin (Qred (a + b))
  | PInf, NInf | NInf, PInf => NaN
  | PInf, _ | _, PInf => PInf
  | NInf, _ | _, NInf => NInf
  end.

Definition fmul (x y : fl) : fl :=
  match x, y with
  | NaN, _ | _, NaN => NaN
  | Fin a, Fin b => Fin (Qred (a * b))
  | _, _ => finf (sign_mul (fsign x) (fsign y))
  end.

(** IEEE division.  A finite nonzero value over zero is an infinity, zero
    over zero is NaN; nothing raises. *)
Definition fdiv (x y : fl) : fl :=
  match x, y with
  | NaN, _ | _, NaN => NaN
  | Fin a, Fin b => if Qeq_bool b 0 then finf (a ?= 0) else Fin (Qred (a / b))
  | Fin _, _ => Fin 0
  | _, Fin b => finf (sign_mul (fsign x) (if Qeq_bool b 0 then Gt else b ?= 0))
  | _, _ => NaN
  end.

(** [x < y]; false as soon as one side is NaN. *)
Definition flt (x y : fl) : bool :=
  match x, y with
  | NaN, _ | _, NaN => false
  | Fin a, Fin b => match a ?= b with Lt => true | _ => false end
  | NInf, NInf => false
  | NInf, _ => true
  | _, PInf => match x with PInf => false | _ => true end
  | _, _ => false
  end.

(** [tf.maximum] on two scalars: the larger one, NaN if either is NaN. *)
Definition fmaximum (x y : fl) : fl :=
  match x, y with
  | NaN, _ | _, NaN => NaN
  | _, _ => if flt x y then y else x
  end.

Definition fzero : fl := Fin 0.

Definition of_nat (n : nat) : fl := Fin (inject_Z (Z.of_nat n)).

(** Sum of a list, left to right from zero. *)
Definition fsum (l : list fl) : fl := foldl fadd fzero l.

(** [tf.math.reduce_max] over all elements; the maximum of no element
    is minus infinity. *)
Definition reduce_max_list (l : list fl) : fl := foldl fmaximum NInf l.

(** [tf.argmax] of a vector: the index of the largest entry, the first one
    among equals (the behaviour of the CPU kernel, which scans left to right
    and replaces its candidate only by a strictly larger entry).  [best] is the
    candidate so far, [bi] its index and [i] the index of the head of [l]. *)
Fixpoint argmax_from (best : fl) (bi i : nat) (l : list fl) : nat :=
  match l with
  | [] => bi
  | x :: l' =>
      if flt best x then argmax_from x i (S i) l'
      else argmax_from best bi (S i) l'
  end.

(** An empty vector has no argmax: TensorFlow raises. *)
Definition argmax (l : list fl) : option nat :=
  match l with
  | [] => None
  | x :: l' => Some (argmax_from x 0%nat 1%nat l')
  end.

(** Predicates on scalars used in the statements. *)

Definition finite (x : fl) : Prop :=
  match x with Fin _ => True | _ => False end.

(** Numerically zero. *)
Definition is_zero (x : fl) : Prop :=
  match x with Fin q => q == 0 | _ => False end.


(** The same value: the same special value, or equal rationals. *)
Definition feq (x y : fl) : Prop :=
  match x, y with
  | Fin a, Fin b => a == b
  | PInf, PInf | NInf, NInf | NaN, NaN => True
  | _, _ => False
  end.

(** Strictly below zero (and finite). *)
Definition below_zero (x : fl) : Prop :=
  match x with Fin q => q < 0 | _ => False end.

(** Clamping a rational at zero, as [fmaximum _ fzero] does on finite values. *)
Definition Qclamp (q : Q) : Q := if flt (Fin q) (Fin 0) then 0 else q.

(** ** Tensors

    A tensor is its shape and its entries in row-major order, as TensorFlow
    stores it. *)

Record tensor : Type := mkT { shape : list nat; data : list fl }.

Definition numel (sh : list nat) : nat := foldr Nat.mul 1%nat sh.

Definition wf_tensor (t : tensor) : Prop := length (data t) = numel (shape t).

(** The activation of a two-dimensional convolutional layer, and the
    gradient with respect to it: rank 4, laid out (batch, height, width,
    channels). *)
Record tensor4 : Type := mkT4 {
  batch : nat;
  height : nat;
  width : nat;
  channels : nat;
  data4 : list fl
}.

Definition wf_tensor4 (t : tensor4) : Prop :=
  length (data4 t) = (batch t * height t * width t * channels t)%nat.

(** One batch element of such a tensor: rank 3, (height, width, channels). *)
Record tensor3 : Type := mkT3 {
  height3 : nat;
  width3 : nat;
  channels3 : nat;
  data3 : list fl
}.

(** The entry at a flat offset.  Offsets are in range on well-formed
    tensors; the default is never read there. *)
Definition entry (l : list fl) (i : nat) : fl := default NaN (l !! i).

(** [t[n, i, j, k]] *)
Definition get4 (t : tensor4) (n i j k : nat) : fl :=
  entry (data4 t) (((n * height t + i) * width t + j) * channels t + k).

(** ** Errors raised by the libraries *)

Inductive error : Type :=
  | LayerNotFound      (* model.get_layer: no layer of that name *)
  | ModelRejectsInput  (* the forward pass refuses the input tensor *)
  | IndexOutOfRange    (* x[0] on an empty leading axis *)
  | EmptyReduction     (* tf.argmax over an empty axis *)
  | NoGradient         (* tape.gradient returned None *)
  | ShapeMismatch      (* matmul: inner dimensions differ *)
  | ResizeError        (* cv2.resize on an array without pixels *)
  | FileNotFound.      (* savefig: the directory does not exist *)

Inductive result (A : Type) : Type :=
  | Ok (a : A)
  | Raise (e : error).
Arguments Ok {A} a.
Arguments Raise {A} e.

#[global] Instance result_ret : MRet result := fun A a => Ok a.
#[global] Instance result_bind : MBind result := fun A B f r =>
  match r with
  | Ok a => f a
  | Raise e => Raise e
  end.

Definition or_raise {A : Type} (e : error) (o : option A) : result A :=
  match o with
  | Some a => Ok a
  | None => Raise e
  end.

(** ** The steps of [make_heatmap] *)

(** [tf.reduce_mean(grads, axis=(0, 1, 2))]: for each channel, the sum of
    the entries of that channel over the batch * height * width leading
    positions, divided by their number.  The result has one entry per
    channel. *)
Definition reduce_mean_012 (grads : tensor4) : list fl :=
  let n := (batch grads * height grads * width grads)%nat in
  let c := channels grads in
  map (fun k =>
         fdiv (fsum (map (fun r => entry (data4 grads) (r * c + k)) (seq 0 n)))
              (of_nat n))
      (seq 0 c).

(** [t[0]]: the first batch element; an empty batch raises. *)
Definition first_batch (t : tensor4) : result tensor3 :=
  match batch t with
  | O => Raise IndexOutOfRange
  | S _ =>
      Ok {| height3 := height t; width3 := width t; channels3 := channels t;
            data3 := take (height t * width t * channels t) (data4 t) |}
  end.

Definition dot (u v : list fl) : fl := fsum (zip_with fmul u v).

(** [a @ v[..., tf.newaxis]]: a batched product of the (width, channels)
    matrices of [a] with the column vector [v]; shape (height, width, 1).
    The inner dimensions must agree. *)
Definition matmul_col (a : tensor3) (v : list fl) : result tensor :=
  if decide (channels3 a = length v) then
    Ok {| shape := [height3 a; width3 a; 1%nat];
          data :=
            map (fun p => dot (take (channels3 a) (drop (p * channels3 a) (data3 a))) v)
                (seq 0 (height3 a * width3 a)) |}
  else Raise ShapeMismatch.

(** [tf.squeeze(t)], no axis given: every axis of size 1 is removed. *)
Definition squeeze (t : tensor) : tensor :=
  {| shape := filter (fun d => d <> 1%nat) (shape t); data := data t |}.

(** [tf.maximum(t, x)] with a scalar [x], entry by entry. *)
Definition maximum (t : tensor) (x : fl) : tensor :=
  {| shape := shape t; data := map (fun v => fmaximum v x) (data t) |}.

Definition reduce_max (t : tensor) : fl := reduce_max_list (data t).

(** [t / s] with a scalar [s], entry by entry. *)
Definition divide (t : tensor) (s : fl) : tensor :=
  {| shape := shape t; data := map (fun v => fdiv v s) (data t) |}.

(** Line 54: [tf.maximum(heatmap, 0) / tf.math.reduce_max(heatmap)].  Both
    operands are computed from the heat map before it is reassigned. *)
Definition normalize (heatmap : tensor) : tensor :=
  divide (maximum heatmap fzero) (reduce_max heatmap).

(** Lines 49-51: the heat map before normalisation. *)
Definition raw_heatmap (last_conv_layer_output : tensor4) (pooled_grads : list fl)
  : result tensor :=
  a ← first_batch last_conv_layer_output;
  heatmap ← matmul_col a pooled_grads;
  mret (squeeze heatmap).

(** Lines 44-55, from the activation and the gradient on. *)
Definition heatmap_of (last_conv_layer_output grads : tensor4) : result tensor :=
  let pooled_grads := reduce_mean_012 grads in
  heatmap ← raw_heatmap last_conv_layer_output pooled_grads;
  mret (normalize heatmap).

(** ** The model

    The trained classifier is an external collaborator.  It is seen through
    three capabilities: whether it has a layer of a given name; the forward
    pass of the derived two-output model, which for an input gives the
    activation of the named layer and the predictions (one row of class
    scores per batch element); and reverse-mode differentiation, which gives
    the gradient of the scores of one class, summed over the batch, with
    respect to that activation. *)
Section Model.

Variable img : Type.

Record model : Type := {
  has_layer : string -> bool;
  forward : string -> img -> option (tensor4 * list (list fl));
  tape_gradient : string -> img -> nat -> option tensor4
}.

(** Line 35: [tf.argmax(preds[0])]. *)
Definition pred_index (preds : list (list fl)) : result nat :=
  p0 ← or_raise IndexOutOfRange (head preds);
  or_raise EmptyReduction (argmax p0).

(** The method [make_heatmap].  Lines 27-29 build the two-output model and
    fail when the layer is missing; line 34 is the forward pass; line 35
    selects the class; lines 36 and 40 differentiate the score of that class,
    taken over the whole batch, with respect to the activation; the rest is
    [heatmap_of].  The method takes the input, the model and the layer name,
    and nothing else. *)
Definition make_heatmap (img_array : img) (m : model)
    (last_conv_layer_name : string) : result tensor :=
  if has_layer m last_conv_layer_name then
    '(last_conv_layer_output, preds) ←
      or_raise ModelRejectsInput (forward m last_conv_layer_name img_array);
    idx ← pred_index preds;
    grads ← or_raise NoGradient
              (tape_gradient m last_conv_layer_name img_array idx);
    heatmap_of last_conv_layer_output grads
  else Raise LayerNotFound.

End Model.

Arguments has_layer {img} _ _.
Arguments forward {img} _ _ _.
Arguments tape_gradient {img} _ _ _ _.
Arguments make_heatmap {img} _ _ _.

(** ** Valid forward and backward passes *)

(** A well-formed tensor of finite entries. *)
Definition valid4 (t : tensor4) : Prop :=
  wf_tensor4 t /\ Forall finite (data4 t).

(** The gradient with respect to an activation has the activation's shape. *)
Definition same_shape4 (a g : tensor4) : Prop :=
  batch a = batch g /\ height a = height g /\ width a = width g
  /\ channels a = channels g.

(** The entries of the heat map before normalisation, spelled out: one dot
    product per spatial position of the first batch element. *)
Definition raw_data (a : tensor4) (v : list fl) : list fl :=
  map (fun p => dot (take (channels a)
                          (drop (p * channels a)
                                (take (height a * width a * channels a) (data4 a))))
                    v)
      (seq 0 (height a * width a)).

(** ** The normalisation as the specification words it

    "Clamp negative values to zero, then divide elementwise by the global
    maximum of the resulting array": the divisor is taken from the clamped
    array. *)
Definition normalize_spec (heatmap : tensor) : tensor :=
  let clamped := maximum heatmap fzero in
  divide clamped (reduce_max clamped).

(** ** The pooled vector as the specification words it

    "Averaging the gradient tensor over all spatial positions (and batch)":
    for channel [k], the sum of [grads[n, i, j, k]] over every batch element
    [n], row [i] and column [j], divided by the number of such positions. *)
Definition mean_over_batch_and_space (grads : tensor4) (k : nat) : fl :=
  fdiv
    (fsum
       (flat_map
          (fun n =>
             flat_map
               (fun i => map (fun j => get4 grads n i j k) (seq 0 (width grads)))
               (seq 0 (height grads)))
          (seq 0 (batch grads))))
    (of_nat (batch grads * height grads * width grads)).

(** ** The overlay renderer

    [image] draws on pyplot's current figure, which is global, and writes a
    file.  The world it acts on is the list of pictures drawn on the current
    axes so far (bottom first), the directories that exist and the files with
    their contents.  The content of a saved figure is the list of pictures
    it shows: the PNG encoding is not modelled. *)

(** A two-dimensional array of scalars, the heat map handed to [image]. *)
Record tensor2 : Type := mkT2 {
  rows : nat;
  cols : nat;
  data2 : list fl
}.

(** The directory part of a path: what precedes its last slash, and the
    empty string (the working directory) when it has none. *)
Fixpoint drop_to_slash (l : list Ascii.ascii) : list Ascii.ascii :=
  match l with
  | [] => []
  | a :: l' => if Ascii.eqb a "/"%char then l' else drop_to_slash l'
  end.

Definition dirname (path : string) : string :=
  string_of_list_ascii
    (reverse (drop_to_slash (reverse (list_ascii_of_string path)))).

Section Overlay.

(** The arrays that [plt.imshow] accepts as a picture. *)
Variable picture : Type.

(** The interpolation of [cv2.resize]: the value of the pixel in row [i]
    and column [j] of the picture obtained from [src] for the target size
    [dsize] = (width, height). *)
Variable interpolate : tensor2 -> nat * nat -> nat -> nat -> fl.

Inductive pixels : Type :=
  | Picture (p : picture)
  | Scalars (t : tensor2).

Record drawn : Type := mkDrawn {
  content : pixels;
  cmap : option string;
  alpha : option Q
}.

Record world : Type := mkWorld {
  axes : list drawn;
  dirs : gset string;
  files : gmap string (list drawn)
}.

(** [plt.imshow(x, cmap=.., alpha=..)]: one more picture on the axes. *)
Definition imshow (x : pixels) (cm : option string) (al : option Q)
    (w : world) : world :=
  {| axes := axes w ++ [mkDrawn x cm al]; dirs := dirs w; files := files w |}.

(** [cv2.resize(src, dsize)]: a picture of [dsize] = (width, height)
    pixels; a source without pixels is refused. *)
Definition cv2_resize (src : tensor2) (dsize : nat * nat) : result tensor2 :=
  if decide (rows src * cols src = 0)%nat then Raise ResizeError
  else
    Ok {| rows := dsize.2; cols := dsize.1;
          data2 := flat_map (fun i => map (interpolate src dsize i) (seq 0 dsize.1))
                            (seq 0 dsize.2) |}.

(** [plt.savefig(fname)]: the current figure is written to the file,
    replacing what was there; the directory of the file must exist and is
    never created. *)
Definition savefig (fname : string) (w : world) : world * result unit :=
  if decide (dirname fname ∈ dirs w) then
    ({| axes := axes w; dirs := dirs w;
        files := <[ fname := axes w ]> (files w) |},
     Ok tt)
  else (w, Raise FileNotFound).

(** The method [image].  What was drawn before an exception stays drawn:
    the world is returned in both cases.  On success the caller gets
    [plt] back, which carries no value of its own. *)
Definition image (image0 : picture) (heatmap : tensor2) (w : world)
    : world * result unit :=
  let w1 := imshow (Picture image0) (Some "gray"%string) None w in
  match cv2_resize heatmap (64%nat, 64%nat) with
  | Raise e => (w1, Raise e)
  | Ok resized =>
      let w2 := imshow (Scalars resized) None (Some (4 # 10)) w1 in
      savefig "data/save_fig/fig_saved.png" w2
  end.

End Overlay.

Arguments Picture {picture} p.
Arguments Scalars {picture} t.
Arguments mkDrawn {picture} content cmap alpha.
Arguments content {picture} _.
Arguments cmap {picture} _.
Arguments alpha {picture} _.
Arguments mkWorld {picture} axes dirs files.
Arguments axes {picture} _.
Arguments dirs {picture} _.
Arguments files {picture} _.
Arguments imshow {picture} x cm al w.
Arguments savefig {picture} fname w.
Arguments image {picture} interpolate image0 heatmap w.

(** ** A small classifier for concrete runs

    One inspectable layer, one fixed forward pass, and a table of
    gradients, one per class. *)

Definition ints (l : list Z) : list fl := map (fun z => Fin (inject_Z z)) l.

Definition table_model (name : string) (act : tensor4) (preds : list (list fl))
    (grads : nat -> option tensor4) : model unit :=
  {| has_layer := fun s => bool_decide (s = name);
     forward := fun s _ => if bool_decide (s = name) then Some (act, preds) else None;
     tape_gradient := fun s _ k => if bool_decide (s = name) then grads k else None |}.

(** A 2 x 2 activation with two channels, batch of one. *)
Definition act_2x2x2 : tensor4 :=
  mkT4 1 2 2 2 (ints [1; 2; 3; 4; 5; 0; 2; 1]%Z).

Definition preds_3 : list (list fl) :=
  [[Fin (1 # 10); Fin (7 # 10); Fin (7 # 10)]].

(** Class 0: the gradient vanishes.  Class 1: the channels pull in opposite
    directions.  Class 2: a gradient that makes every position negative. *)
Definition grads_zero : tensor4 :=
  mkT4 1 2 2 2 (ints [0; 0; 0; 0; 0; 0; 0; 0]%Z).
Definition grads_opposed : tensor4 :=
  mkT4 1 2 2 2 (ints [1; -1; 1; -1; 1; -1; 1; -1]%Z).
Definition grads_down : tensor4 :=
  mkT4 1 2 2 2 (ints [-3; -1; -3; -1; -3; -1; -3; -1]%Z).

Definition grads_2x2x2 (k : nat) : option tensor4 :=
  match k with
  | 0%nat => Some grads_zero
  | 1%nat => Some grads_opposed
  | 2%nat => Some grads_down
  | _ => None
  end.

(** The heat maps before normalisation that classes 1 and 2 give. *)
Definition raw_opposed : tensor :=
  mkT [2%nat; 2%nat] [Fin (-1); Fin (-1); Fin 5; Fin 1].
Definition raw_down : tensor :=
  mkT [2%nat; 2%nat] [Fin (-5); Fin (-13); Fin (-15); Fin (-7)].

Definition toy_model : model unit :=
  table_model "conv_last" act_2x2x2 preds_3 grads_2x2x2.

(** A second forward pass of the small classifier, in which class 2 wins. *)
Definition preds_3b : list (list fl) :=
  [[Fin (1 # 10); Fin (2 # 10); Fin (7 # 10)]].

Definition toy_model_neg : model unit :=
  table_model "conv_last" act_2x2x2 preds_3b grads_2x2x2.

(** A third one, in which class 0 wins: its gradient vanishes. *)
Definition preds_3c : list (list fl) :=
  [[Fin (7 # 10); Fin (2 # 10); Fin (1 # 10)]].

Definition toy_model_flat : model unit :=
  table_model "conv_last" act_2x2x2 preds_3c grads_2x2x2.

(** A layer whose activation is a single row: height 1, width 3, one
    channel. *)
Definition act_1x3x1 : tensor4 := mkT4 1 1 3 1 (ints [1; 2; 4]%Z).

Definition toy_model_row : model unit :=
  table_model "conv_last" act_1x3x1 preds_3
    (fun _ => Some (mkT4 1 1 3 1 (ints [1; 1; 1]%Z))).

(** ** The scenario of a 4 x 4 activation with 8 channels

    The activation counts its entries 0, 1, 2, ... in storage order; the
    gradient of the class score is 1 everywhere. *)
Definition act_4x4x8 : tensor4 :=
  mkT4 1 4 4 8 (ints (map Z.of_nat (seq 0 128))).

Definition grads_ones_4x4x8 : tensor4 :=
  mkT4 1 4 4 8 (replicate 128 (Fin 1)).

(** ** A small world for concrete runs of [image] *)

(** An interpolation that repeats the top-left pixel of the source. *)
Definition corner_pixel (src : tensor2) (_ : nat * nat) (_ _ : nat) : fl :=
  entry (data2 src) 0.

Definition heat_2x2 : tensor2 := mkT2 2 2 [Fin 0; Fin 0; Fin 1; Fin (1 # 5)].
Definition heat_7x7 : tensor2 := mkT2 7 7 (replicate 49 (Fin (1 # 2))).

(** Nothing drawn yet, no file saved yet, the target directory exists. *)
Definition world_ready : world unit :=
  mkWorld [] {[ "data/save_fig"%string ]} ∅.

(** The same without the target directory. *)
Definition world_bare : world unit := mkWorld [] ∅ ∅.

(** Two calls in a row, with different heat maps. *)
Definition first_call : world unit * result unit :=
  image corner_pixel tt heat_2x2 world_ready.
Definition second_call : world unit * result unit :=
  image corner_pixel tt heat_7x7 first_call.1.

(** ** Definitions for the further properties *)




(** A batch of two 1 x 2 activations with one channel, and a second batch
    that differs from it in the second element only. *)
Definition act_batch2 : tensor4 := mkT4 2 1 2 1 (ints [1; 2; 7; 9]%Z).
Definition act_batch2' : tensor4 := mkT4 2 1 2 1 (ints [1; 2; -4; 0]%Z).
Definition grads_batch2 : tensor4 := mkT4 2 1 2 1 (ints [1; 2; 3; 6]%Z).


(** * Properties *)

(** ** Scalars *)

Lemma finite_inv (x : fl) : finite x -> exists q, x = Fin q.
Proof. destruct x; simpl; try tauto. eauto. Qed.

Lemma Forall_finite_inv (l : list fl) :
  Forall finite l -> exists qs, l = map Fin qs.
Proof.
  induction 1 as [|x l Hx _ [qs ->]].
  - exists []. reflexivity.
  - destruct (finite_inv x Hx) as [q ->]. exists (q :: qs). reflexivity.
Qed.

#[global] Instance feq_equiv : Equivalence feq.
Proof.
  split.
  - intros []; simpl; auto. reflexivity.
  - intros [] []; simpl; auto. intros H. symmetry. exact H.
  - intros [] [] []; simpl; try tauto. intros H1 H2. rewrite H1. exact H2.
Qed.

Lemma foldl_Qplus_shift (qs : list Q) (a : Q) :
  foldl Qplus a qs == a + foldl Qplus 0 qs.
Proof.
  revert a. induction qs as [|q qs IH]; intros a; simpl.
  - ring.
  - rewrite IH, (IH (0 + q)). ring.
Qed.

Lemma foldl_fadd_Fin (qs : list Q) (a : Q) :
  exists s, foldl fadd (Fin a) (map Fin qs) = Fin s /\ s == foldl Qplus a qs.
Proof.
  revert a. induction qs as [|q qs IH]; intros a; simpl.
  - exists a. split; reflexivity.
  - destruct (IH (Qred (a + q))) as (s & -> & Hs). exists s. split; [reflexivity|].
    rewrite Hs, foldl_Qplus_shift, (foldl_Qplus_shift qs (a + q)), Qred_correct.
    reflexivity.
Qed.

Lemma fsum_Fin (qs : list Q) :
  exists s, fsum (map Fin qs) = Fin s /\ s == foldl Qplus 0 qs.
Proof. apply foldl_fadd_Fin. Qed.


Lemma foldl_Qplus_zero (qs : list Q) (a : Q) :
  a == 0 -> Forall (fun q => q == 0) qs -> foldl Qplus a qs == 0.
Proof.
  intros Ha H. revert a Ha.
  induction H as [|q qs Hq _ IH]; intros a Ha; simpl; [exact Ha|].
  apply IH. rewrite Ha, Hq. reflexivity.
Qed.

Lemma Forall_is_zero_Fin (qs : list Q) :
  Forall is_zero (map Fin qs) -> Forall (fun q => q == 0) qs.
Proof.
  induction qs as [|q qs IH]; intros H; [constructor|].
  inversion H; subst. constructor; [assumption|]. apply IH. assumption.
Qed.

Lemma is_zero_finite (x : fl) : is_zero x -> finite x.
Proof. destruct x; simpl; tauto. Qed.

Lemma fsum_zero (l : list fl) : Forall is_zero l -> is_zero (fsum l).
Proof.
  intros H.
  assert (Hf : Forall finite l).
  { eapply Forall_impl; [exact H|]. apply is_zero_finite. }
  destruct (Forall_finite_inv l Hf) as [qs ->].
  destruct (fsum_Fin qs) as (s & -> & Hs). simpl. rewrite Hs.
  apply foldl_Qplus_zero; [reflexivity|]. apply Forall_is_zero_Fin, H.
Qed.



Lemma of_nat_pos (n : nat) : (0 < n)%nat -> 0 < inject_Z (Z.of_nat n).
Proof.
  intros H. change 0 with (inject_Z 0). rewrite <- Zlt_Qlt. lia.
Qed.

Lemma Qeq_bool_false (a b : Q) : ~ a == b -> Qeq_bool a b = false.
Proof.
  intros H. destruct (Qeq_bool a b) eqn:E; [|reflexivity].
  apply Qeq_bool_eq in E. contradiction.
Qed.

Lemma Qeq_bool_true (a b : Q) : a == b -> Qeq_bool a b = true.
Proof. apply Qeq_eq_bool. Qed.

Lemma fdiv_Fin_nonzero (a b : Q) :
  ~ b == 0 -> fdiv (Fin a) (Fin b) = Fin (Qred (a / b)).
Proof. intros H. simpl. rewrite Qeq_bool_false by exact H. reflexivity. Qed.

Lemma fdiv_of_nat (a : Q) (n : nat) :
  (0 < n)%nat -> fdiv (Fin a) (of_nat n) = Fin (Qred (a / inject_Z (Z.of_nat n))).
Proof.
  intros H. apply fdiv_Fin_nonzero. pose proof (of_nat_pos n H). lra.
Qed.

Lemma fdiv_zero_zero (x y : fl) : is_zero x -> is_zero y -> fdiv x y = NaN.
Proof.
  destruct x as [a| | |], y as [b| | |]; simpl; try tauto.
  intros Ha Hb. rewrite (Qeq_bool_true _ _ Hb).
  rewrite (proj1 (Qeq_alt a 0) Ha). reflexivity.
Qed.

Lemma fdiv_zero_of_nat (x : fl) (n : nat) :
  is_zero x -> (0 < n)%nat -> is_zero (fdiv x (of_nat n)).
Proof.
  destruct x as [q| | |]; simpl; try tauto. intros Hq Hn.
  change (is_zero (fdiv (Fin q) (of_nat n))).
  rewrite fdiv_of_nat by exact Hn. simpl.
  rewrite Qred_correct, Hq. unfold Qdiv. ring.
Qed.

Lemma fdiv_Fin_proper (a a' b b' : Q) :
  a == a' -> b == b' -> fdiv (Fin a) (Fin b) = fdiv (Fin a') (Fin b').
Proof.
  intros Ha Hb. simpl.
  assert (Eb : Qeq_bool b 0 = Qeq_bool b' 0).
  { destruct (Qeq_bool b' 0) eqn:E.
    - apply Qeq_bool_true. apply Qeq_bool_eq in E. rewrite Hb. exact E.
    - apply Qeq_bool_false. intros H. apply Qeq_bool_neq in E. apply E.
      rewrite <- Hb. exact H. }
  rewrite Eb. destruct (Qeq_bool b' 0).
  - rewrite (Qcompare_comp a a' Ha 0 0 (Qeq_refl 0)). reflexivity.
  - f_equal. apply Qred_complete. rewrite Ha, Hb. reflexivity.
Qed.

Lemma fmul_finite_zero (x y : fl) : finite x -> is_zero y -> is_zero (fmul x y).
Proof.
  destruct x as [a| | |], y as [b| | |]; simpl; try tauto.
  intros _ Hb. rewrite Qred_correct, Hb. ring.
Qed.

Lemma flt_Fin (a b : Q) : flt (Fin a) (Fin b) = true <-> a < b.
Proof.
  simpl. rewrite Qlt_alt. destruct (a ?= b); split; congruence.
Qed.

Lemma flt_Fin_false (a b : Q) : flt (Fin a) (Fin b) = false <-> b <= a.
Proof.
  pose proof (flt_Fin a b) as H. pose proof (Qlt_le_dec a b) as [Hlt|Hle].
  - split; [|lra]. intros E. apply H in Hlt. congruence.
  - split; [auto|]. intros _. destruct (flt (Fin a) (Fin b)); [|reflexivity].
    assert (a < b) by (apply H; reflexivity). lra.
Qed.

Lemma fmaximum_Fin (a b : Q) :
  fmaximum (Fin a) (Fin b) = Fin (if flt (Fin a) (Fin b) then b else a).
Proof. unfold fmaximum. destruct (flt (Fin a) (Fin b)); reflexivity. Qed.


Lemma fmaximum_zero_Qclamp (q : Q) : fmaximum (Fin q) fzero = Fin (Qclamp q).
Proof. unfold fzero, Qclamp. apply fmaximum_Fin. Qed.

Lemma Qclamp_spec (q : Q) :
  0 <= Qclamp q /\ q <= Qclamp q /\ (q <= 0 -> Qclamp q == 0)
  /\ (0 <= q -> Qclamp q = q).
Proof.
  unfold Qclamp. destruct (flt (Fin q) (Fin 0)) eqn:E.
  - apply flt_Fin in E. repeat split; try (intros; lra).
  - apply flt_Fin_false in E. repeat split; try (intros; lra).
Qed.

Lemma fmaximum_zero_is_zero (x : fl) : is_zero x -> is_zero (fmaximum x fzero).
Proof.
  destruct x as [q| | |]; simpl; try tauto. intros Hq.
  change (is_zero (fmaximum (Fin q) fzero)). rewrite fmaximum_zero_Qclamp. simpl.
  destruct (Qclamp_spec q) as (_ & _ & H & _). apply H. lra.
Qed.


Lemma Forall_below_zero_inv (l : list fl) :
  Forall below_zero l ->
  exists qs, l = map Fin qs /\ Forall (fun q => q < 0) qs.
Proof.
  induction 1 as [|x l Hx _ (qs & -> & Hqs)].
  - exists []. split; [reflexivity|constructor].
  - destruct x as [q| | |]; simpl in Hx; try tauto.
    exists (q :: qs). split; [reflexivity|]. constructor; assumption.
Qed.

(** ** Maxima and the normalisation *)

(** The running maximum of finite values is one of them and bounds them all. *)
Lemma foldl_fmaximum_Fin (qs : list Q) (a : Q) :
  exists m, foldl fmaximum (Fin a) (map Fin qs) = Fin m
            /\ In m (a :: qs) /\ a <= m /\ Forall (fun q => q <= m) qs.
Proof.
  revert a. induction qs as [|q qs IH]; intros a.
  - exists a. simpl. repeat split; auto; try lra. 
  - cbn [map foldl]. rewrite fmaximum_Fin.
    destruct (flt (Fin a) (Fin q)) eqn:E.
    + apply flt_Fin in E.
      destruct (IH q) as (m & Hm & Hin & Hle & Hall).
      exists m. repeat split; auto.
      * right. exact Hin.
      * lra.
    + apply flt_Fin_false in E.
      destruct (IH a) as (m & Hm & Hin & Hle & Hall).
      exists m. repeat split; auto.
      * destruct Hin as [<-|Hin]; [left; reflexivity|right; right; exact Hin].
      * constructor; [lra|exact Hall].
Qed.

Lemma reduce_max_list_nil : reduce_max_list [] = NInf.
Proof. reflexivity. Qed.

Lemma reduce_max_list_Fin (qs : list Q) :
  qs <> [] ->
  exists m, reduce_max_list (map Fin qs) = Fin m
            /\ In m qs /\ Forall (fun q => q <= m) qs.
Proof.
  destruct qs as [|a qs]; [congruence|]. intros _.
  unfold reduce_max_list. cbn [map foldl].
  change (fmaximum NInf (Fin a)) with (Fin a).
  destruct (foldl_fmaximum_Fin qs a) as (m & Hm & Hin & Hle & Hall).
  exists m. repeat split; auto.
Qed.

Lemma reduce_max_list_zero (l : list fl) :
  l <> [] -> Forall is_zero l -> is_zero (reduce_max_list l).
Proof.
  intros Hne Hz.
  assert (Hf : Forall finite l).
  { eapply Forall_impl; [exact Hz|]. apply is_zero_finite. }
  destruct (Forall_finite_inv l Hf) as [qs ->].
  destruct (reduce_max_list_Fin qs) as (mx & -> & Hin & _).
  - intros ->. apply Hne. reflexivity.
  - apply Forall_is_zero_Fin in Hz. rewrite Forall_forall in Hz.
    simpl. apply Hz, list_elem_of_In, Hin.
Qed.

Lemma map_fmaximum_zero (qs : list Q) :
  map (fun v => fmaximum v fzero) (map Fin qs) = map Fin (map Qclamp qs).
Proof.
  rewrite !map_map. apply map_ext. intros q. apply fmaximum_zero_Qclamp.
Qed.

(** On a heat map whose maximum is not negative, clamping does not change
    the maximum. *)
Lemma reduce_max_clamped (qs : list Q) (m : Q) :
  reduce_max_list (map Fin qs) = Fin m -> 0 <= m ->
  exists m', reduce_max_list (map Fin (map Qclamp qs)) = Fin m' /\ m' == m.
Proof.
  intros Hm Hpos.
  destruct qs as [|q0 qs0]; [discriminate Hm|].
  destruct (reduce_max_list_Fin (q0 :: qs0)) as (m1 & Hm1 & Hin & Hall);
    [congruence|].
  rewrite Hm in Hm1. injection Hm1 as <-.
  destruct (reduce_max_list_Fin (map Qclamp (q0 :: qs0))) as (m' & Hm' & Hin' & Hall');
    [discriminate|].
  exists m'. split; [exact Hm'|].
  apply Qle_antisym.
  - apply in_map_iff in Hin' as (q & <- & Hq).
    rewrite Forall_forall in Hall. apply list_elem_of_In, Hall in Hq.
    destruct (Qclamp_spec q) as (_ & _ & Hneg & Hnn).
    destruct (Qlt_le_dec q 0) as [H|H].
    + rewrite Hneg by lra. exact Hpos.
    + rewrite Hnn by exact H. exact Hq.
  - rewrite Forall_forall in Hall'.
    assert (Hc : Qclamp m ∈ map Qclamp (q0 :: qs0)).
    { apply list_elem_of_In, in_map, Hin. }
    apply Hall' in Hc. destruct (Qclamp_spec m) as (_ & Hle & _). lra.
Qed.

Lemma data_normalize (t : tensor) :
  data (normalize t)
  = map (fun v => fdiv (fmaximum v fzero) (reduce_max t)) (data t).
Proof. unfold normalize, divide, maximum. simpl. rewrite map_map. reflexivity. Qed.

Lemma shape_normalize (t : tensor) : shape (normalize t) = shape t.
Proof. reflexivity. Qed.


Lemma normalize_eq_spec (raw : tensor) :
  Forall finite (data raw) -> ~ below_zero (reduce_max raw) ->
  normalize raw = normalize_spec raw.
Proof.
  intros Hfin Hnn. unfold normalize, normalize_spec, divide, maximum, reduce_max in *.
  cbn [shape data]. f_equal.
  destruct (Forall_finite_inv _ Hfin) as [qs Hqs]. rewrite Hqs in *.
  rewrite map_fmaximum_zero.
  destruct qs as [|q0 qs0]; [reflexivity|].
  destruct (reduce_max_list_Fin (q0 :: qs0)) as (m & Hm & _); [congruence|].
  rewrite Hm in *. simpl in Hnn.
  destruct (reduce_max_clamped (q0 :: qs0) m Hm) as (m' & Hm' & Hmm'); [lra|].
  rewrite Hm'. rewrite !map_map. apply map_ext. intros q.
  apply fdiv_Fin_proper; [reflexivity|]. symmetry. exact Hmm'.
Qed.

(** ** Flat offsets and nested indices *)

Lemma entry_lookup (l : list fl) (i : nat) (x : fl) :
  l !! i = Some x -> entry l i = x.
Proof. unfold entry. intros ->. reflexivity. Qed.

Lemma entry_Forall (P : fl -> Prop) (l : list fl) (i : nat) :
  Forall P l -> (i < length l)%nat -> P (entry l i).
Proof.
  intros H Hi. destruct (lookup_lt_is_Some_2 l i Hi) as [x Hx].
  rewrite (entry_lookup _ _ _ Hx).
  eapply Forall_lookup_1; eauto.
Qed.

Lemma flat_offset_lt (r c k n : nat) :
  (r < n)%nat -> (k < c)%nat -> (r * c + k < n * c)%nat.
Proof. intros Hr Hk. nia. Qed.

Lemma flat_map_seq_shift {A : Type} (g : nat -> list A) (a m : nat) :
  flat_map g (seq a m) = flat_map (fun j => g (a + j)%nat) (seq 0 m).
Proof.
  revert a g. induction m as [|m IH]; intros a g; [reflexivity|].
  cbn [seq flat_map]. rewrite Nat.add_0_r. f_equal.
  rewrite (IH (S a) g), (IH 1%nat (fun j => g (a + j)%nat)).
  apply flat_map_ext. intros j. f_equal. lia.
Qed.

(** A run over [n * m] flat positions is a run over [n] blocks of [m]. *)
Lemma flat_map_seq_mul {A : Type} (g : nat -> list A) (n m : nat) :
  flat_map g (seq 0 (n * m))
  = flat_map (fun i => flat_map (fun j => g (i * m + j)%nat) (seq 0 m)) (seq 0 n).
Proof.
  induction n as [|n IH]; [reflexivity|].
  replace (S n * m)%nat with (n * m + m)%nat by lia.
  rewrite seq_app, flat_map_app, IH, seq_S, flat_map_app. f_equal.
  cbn [flat_map]. rewrite app_nil_r. apply flat_map_seq_shift.
Qed.

Lemma map_as_flat_map {A B : Type} (f : A -> B) (l : list A) :
  map f l = flat_map (fun x => [f x]) l.
Proof. induction l as [|x l IH]; [reflexivity|]. simpl. rewrite IH. reflexivity. Qed.

Lemma map_seq_mul {A : Type} (f : nat -> A) (n m : nat) :
  map f (seq 0 (n * m))
  = flat_map (fun i => map (fun j => f (i * m + j)%nat) (seq 0 m)) (seq 0 n).
Proof.
  rewrite map_as_flat_map, flat_map_seq_mul.
  apply flat_map_ext. intros i. symmetry. apply map_as_flat_map.
Qed.

(** The flat positions of a rank-4 tensor, by batch element, row and column. *)
Lemma map_seq_mul3 {A : Type} (f : nat -> A) (b h w : nat) :
  map f (seq 0 (b * h * w))
  = flat_map
      (fun n =>
         flat_map (fun i => map (fun j => f ((n * h + i) * w + j)%nat) (seq 0 w))
                  (seq 0 h))
      (seq 0 b).
Proof.
  rewrite map_seq_mul.
  apply (flat_map_seq_mul (fun r => map (fun j => f (r * w + j)%nat) (seq 0 w)) b h).
Qed.

(** A row of [c] entries cut out of the first [limit] entries of a buffer. *)
Lemma take_drop_row (l : list fl) (p c limit : nat) :
  (p * c + c <= limit)%nat -> (limit <= length l)%nat ->
  take c (drop (p * c) (take limit l))
  = map (fun k => entry l (p * c + k)) (seq 0 c).
Proof.
  intros Hp Hl. apply list_eq. intros k.
  rewrite list_lookup_fmap.
  destruct (decide (k < c)%nat) as [Hk|Hk].
  - rewrite lookup_take_lt, lookup_drop, lookup_take_lt by lia.
    rewrite lookup_seq_lt by exact Hk. simpl.
    destruct (lookup_lt_is_Some_2 l (p * c + k)) as [x Hx]; [lia|].
    rewrite Hx. unfold entry. rewrite Hx. reflexivity.
  - rewrite lookup_take_ge by lia. rewrite lookup_seq_ge by lia. reflexivity.
Qed.


(** ** The pooled importance vector *)

Lemma reduce_mean_012_length (g : tensor4) :
  length (reduce_mean_012 g) = channels g.
Proof. unfold reduce_mean_012. rewrite length_map, length_seq. reflexivity. Qed.

Lemma reduce_mean_012_lookup (g : tensor4) (k : nat) :
  (k < channels g)%nat ->
  reduce_mean_012 g !! k
  = Some (fdiv (fsum (map (fun r => entry (data4 g) (r * channels g + k))
                          (seq 0 (batch g * height g * width g))))
               (of_nat (batch g * height g * width g))).
Proof.
  intros Hk. unfold reduce_mean_012.
  rewrite list_lookup_fmap, lookup_seq_lt by exact Hk. reflexivity.
Qed.

(** Every entry of the pooled vector satisfies [Q] as soon as the column
    sums of entries satisfying [P], divided by the count, do. *)
Lemma reduce_mean_012_Forall (P R : fl -> Prop) (g : tensor4) :
  wf_tensor4 g -> Forall P (data4 g) ->
  (forall l, Forall P l ->
             R (fdiv (fsum l) (of_nat (batch g * height g * width g)))) ->
  Forall R (reduce_mean_012 g).
Proof.
  intros Hwf HP Hstep. unfold reduce_mean_012.
  apply Forall_map, Forall_forall. intros k Hk. unfold compose.
  apply elem_of_seq in Hk. apply Hstep.
  apply Forall_map, Forall_forall. intros r Hr. unfold compose.
  apply elem_of_seq in Hr. apply entry_Forall; [exact HP|].
  rewrite Hwf. apply flat_offset_lt; lia.
Qed.


Lemma reduce_mean_012_zero (g : tensor4) :
  wf_tensor4 g -> Forall is_zero (data4 g) ->
  (0 < batch g * height g * width g)%nat ->
  Forall is_zero (reduce_mean_012 g).
Proof.
  intros Hwf Hz Hn.
  apply (reduce_mean_012_Forall is_zero is_zero g Hwf Hz).
  intros l Hl. apply fdiv_zero_of_nat; [|exact Hn]. apply fsum_zero, Hl.
Qed.

Lemma reduce_mean_012_mean (g : tensor4) (k : nat) :
  (k < channels g)%nat ->
  reduce_mean_012 g !! k = Some (mean_over_batch_and_space g k).
Proof.
  intros Hk. rewrite reduce_mean_012_lookup by exact Hk.
  unfold mean_over_batch_and_space, get4. rewrite map_seq_mul3. reflexivity.
Qed.

(** C5.  The pooled vector computed from a gradient that has the shape of the
    activation has one entry per channel of the activation, and its entry for
    channel [k] is the mean of the gradient over the batch axis and both
    spatial axes. *)
Theorem pooled_grads_channel_mean (act grads : tensor4) :
  same_shape4 act grads ->
  length (reduce_mean_012 grads) = channels act
  /\ forall k, (k < channels act)%nat ->
       reduce_mean_012 grads !! k = Some (mean_over_batch_and_space grads k).
Proof.
  intros (_ & _ & _ & Hc). rewrite Hc. split.
  - apply reduce_mean_012_length.
  - intros k Hk. apply reduce_mean_012_mean, Hk.
Qed.

Lemma pooled_grads_channel_mean_witness :
  length (reduce_mean_012 grads_opposed) = channels act_2x2x2
  /\ forall k, (k < channels act_2x2x2)%nat ->
       reduce_mean_012 grads_opposed !! k
       = Some (mean_over_batch_and_space grads_opposed k).
Proof.
  apply (pooled_grads_channel_mean act_2x2x2 grads_opposed). repeat split.
Defined.

Example toy_pooled :
  reduce_mean_012 (mkT4 1 2 2 2 (ints [1; -1; 3; -1; 1; -2; 3; 0]%Z))
  = [Fin 2; Fin (-1)].
Proof. vm_compute. reflexivity. Qed.

Example toy_pooled_batch2 :
  reduce_mean_012 (mkT4 2 1 2 1 (ints [1; 2; 3; 6]%Z)) = [Fin 3].
Proof. vm_compute. reflexivity. Qed.

(** ** The weighted sum over channels *)



Lemma dot_finite_zero (u v : list fl) :
  Forall finite u -> Forall is_zero v -> is_zero (dot u v).
Proof.
  intros Hu Hv. apply fsum_zero. revert v Hv.
  induction Hu as [|x u Hx _ IH]; intros v Hv; [constructor|].
  destruct Hv as [|y v Hy Hv]; [constructor|]. simpl. constructor.
  - apply fmul_finite_zero; assumption.
  - apply IH, Hv.
Qed.



Lemma Forall_take_drop (P : fl -> Prop) (l : list fl) (n k : nat) :
  Forall P l -> Forall P (take n (drop k l)).
Proof. intros H. apply Forall_take, Forall_drop, H. Qed.

Lemma raw_heatmap_unfold (a : tensor4) (v : list fl) :
  raw_heatmap a v =
  match batch a with
  | O => Raise IndexOutOfRange
  | S _ =>
      if decide (channels a = length v) then
        Ok {| shape := filter (fun d => d <> 1%nat) [height a; width a; 1%nat];
              data := raw_data a v |}
      else Raise ShapeMismatch
  end.
Proof.
  unfold raw_heatmap, first_batch. destruct (batch a); [reflexivity|].
  cbn [mbind result_bind]. unfold matmul_col. cbn [channels3 height3 width3 data3].
  destruct (decide (channels a = length v)); reflexivity.
Qed.


Lemma raw_data_Forall (P R : fl -> Prop) (a : tensor4) (v : list fl) :
  Forall P (data4 a) ->
  (forall row, Forall P row -> R (dot row v)) ->
  Forall R (raw_data a v).
Proof.
  intros HP Hstep. unfold raw_data.
  apply Forall_map, Forall_forall. intros p _. unfold compose.
  apply Hstep, Forall_take_drop, Forall_take, HP.
Qed.


Lemma raw_data_length (a : tensor4) (v : list fl) :
  length (raw_data a v) = (height a * width a)%nat.
Proof. unfold raw_data. rewrite length_map, length_seq. reflexivity. Qed.





(** The spec's scenario: a uniform gradient gives eight equal weights, and
    the raw heat map holds, at each of the sixteen positions, the sum of the
    eight channel activations there (64 p + 28 at flat position p). *)
Example scenario_4x4x8 :
  reduce_mean_012 grads_ones_4x4x8 = replicate 8 (Fin 1)
  /\ raw_heatmap act_4x4x8 (reduce_mean_012 grads_ones_4x4x8)
     = Ok (mkT [4%nat; 4%nat]
             (ints (map (fun p => (64 * Z.of_nat p + 28)%Z) (seq 0 16)))).
Proof. split; vm_compute; reflexivity. Qed.

Example toy_raw :
  raw_heatmap act_2x2x2 (reduce_mean_012 grads_opposed)
  = Ok raw_opposed.
Proof. vm_compute. reflexivity. Qed.

Example toy_neg_raw :
  raw_heatmap act_2x2x2
    (reduce_mean_012 grads_down)
  = Ok raw_down.
Proof. vm_compute. reflexivity. Qed.

Lemma heatmap_of_raw (act grads : tensor4) (raw : tensor) :
  raw_heatmap act (reduce_mean_012 grads) = Ok raw ->
  heatmap_of act grads = Ok (normalize raw).
Proof. intros H. unfold heatmap_of. rewrite H. reflexivity. Qed.

(** ** The shape of the result *)

Lemma squeeze_spatial (h w : nat) :
  h <> 1%nat -> w <> 1%nat ->
  filter (fun d => d <> 1%nat) [h; w; 1%nat] = [h; w].
Proof.
  intros Hh Hw. cbn [filter list_filter].
  repeat case_decide; congruence.
Qed.

Lemma squeeze_drops_channel (h w : nat) :
  filter (fun d => d <> 1%nat) [h; w; 1%nat]
  = filter (fun d => d <> 1%nat) [h; w].
Proof. cbn [filter list_filter]. repeat case_decide; congruence. Qed.

Lemma numel_squeeze (sh : list nat) :
  numel (filter (fun d => d <> 1%nat) sh) = numel sh.
Proof.
  induction sh as [|d sh IH]; [reflexivity|].
  rewrite filter_cons. destruct (decide (d <> 1%nat)) as [Hd|Hd].
  - cbn [numel foldr]. f_equal. exact IH.
  - assert (d = 1%nat) as -> by (destruct (Nat.eq_dec d 1%nat); [assumption|contradiction]).
    rewrite IH. unfold numel. cbn [foldr]. lia.
Qed.

(** ** The explained class *)

(** The scan keeps its candidate when no later score is strictly larger,
    and otherwise stops at the first position holding the largest score. *)
Lemma argmax_from_spec (qs : list Q) (a : Q) (bi i : nat) :
  (argmax_from (Fin a) bi i (map Fin qs) = bi
   /\ Forall (fun q => q <= a) qs)
  \/ (exists k top,
        argmax_from (Fin a) bi i (map Fin qs) = (i + k)%nat
        /\ qs !! k = Some top
        /\ a < top
        /\ Forall (fun q => q <= top) qs
        /\ forall j q, (j < k)%nat -> qs !! j = Some q -> q < top).
Proof.
  revert a bi i. induction qs as [|q qs IH]; intros a bi i.
  - left. split; [reflexivity|constructor].
  - cbn [map argmax_from]. destruct (flt (Fin a) (Fin q)) eqn:E.
    + apply flt_Fin in E. right.
      destruct (IH q i (S i)) as [[Hr Hall]|(k & top & Hr & Hk & Hlt & Hall & Hbefore)].
      * exists 0%nat, q. rewrite Hr.
        split; [lia|]. split; [reflexivity|]. split; [exact E|]. split.
        -- constructor; [lra|exact Hall].
        -- intros j q' Hj. lia.
      * exists (S k), top. rewrite Hr.
        split; [lia|]. split; [exact Hk|]. split; [lra|]. split.
        -- constructor; [lra|exact Hall].
        -- intros [|j] q' Hj Hq'.
           ++ injection Hq' as <-. exact Hlt.
           ++ apply (Hbefore j q'); [lia|exact Hq'].
    + apply flt_Fin_false in E.
      destruct (IH a bi (S i)) as [[Hr Hall]|(k & top & Hr & Hk & Hlt & Hall & Hbefore)].
      * left. split; [exact Hr|]. constructor; [exact E|exact Hall].
      * right. exists (S k), top. rewrite Hr.
        split; [lia|]. split; [exact Hk|]. split; [exact Hlt|]. split.
        -- constructor; [lra|exact Hall].
        -- intros [|j] q' Hj Hq'.
           ++ injection Hq' as <-. lra.
           ++ apply (Hbefore j q'); [lia|exact Hq'].
Qed.

(** [tf.argmax] of a non-empty vector of finite scores: the position of a
    largest score, with only strictly smaller scores before it. *)
Lemma argmax_first_maximum (qs : list Q) :
  qs <> [] ->
  exists idx top,
    argmax (map Fin qs) = Some idx
    /\ qs !! idx = Some top
    /\ Forall (fun q => q <= top) qs
    /\ forall j q, (j < idx)%nat -> qs !! j = Some q -> q < top.
Proof.
  destruct qs as [|a qs]; [congruence|]. intros _. cbn [map argmax].
  destruct (argmax_from_spec qs a 0 1)
    as [[Hr Hall]|(k & top & Hr & Hk & Hlt & Hall & Hbefore)].
  - exists 0%nat, a. rewrite Hr.
    split; [reflexivity|]. split; [reflexivity|]. split.
    + constructor; [lra|exact Hall].
    + intros j q Hj. lia.
  - exists (S k), top. rewrite Hr.
    split; [reflexivity|]. split; [exact Hk|]. split.
    + constructor; [lra|exact Hall].
    + intros [|j] q Hj Hq.
      * injection Hq as <-. exact Hlt.
      * apply (Hbefore j q); [lia|exact Hq].
Qed.

(** C4.  The class that [make_heatmap] explains is the position of the
    largest score in the first row of the predictions, the first such position
    among equals; the gradient is requested for that class and no other, so
    that nothing but the model, the input and the layer name determines it. *)
Theorem make_heatmap_explains_top_class {img : Type} (m : model img) (x : img)
    (name : string) (act : tensor4) (qs : list Q) (rest : list (list fl)) :
  has_layer m name = true ->
  forward m name x = Some (act, map Fin qs :: rest) ->
  qs <> [] ->
  exists idx top,
    pred_index (map Fin qs :: rest) = Ok idx
    /\ qs !! idx = Some top
    /\ Forall (fun q => q <= top) qs
    /\ (forall j q, (j < idx)%nat -> qs !! j = Some q -> q < top)
    /\ make_heatmap x m name
       = (grads ← or_raise NoGradient (tape_gradient m name x idx);
          heatmap_of act grads)
    /\ forall m' : model img,
         has_layer m' name = true ->
         forward m' name x = forward m name x ->
         tape_gradient m' name x idx = tape_gradient m name x idx ->
         make_heatmap x m' name = make_heatmap x m name.
Proof.
  intros Hl Hf Hne.
  destruct (argmax_first_maximum qs Hne) as (idx & top & Harg & Htop & Hall & Hfirst).
  assert (Hidx : pred_index (map Fin qs :: rest) = Ok idx).
  { unfold pred_index. cbn. rewrite Harg. reflexivity. }
  assert (Hrun : forall m0 : model img,
             has_layer m0 name = true ->
             forward m0 name x = Some (act, map Fin qs :: rest) ->
             make_heatmap x m0 name
             = (grads ← or_raise NoGradient (tape_gradient m0 name x idx);
                heatmap_of act grads)).
  { intros m0 Hl0 Hf0. unfold make_heatmap. rewrite Hl0, Hf0.
    cbn [or_raise mbind result_bind]. rewrite Hidx. reflexivity. }
  exists idx, top. repeat split; auto.
  intros m' Hl' Hf' Hg'. rewrite (Hrun m Hl Hf), (Hrun m' Hl').
  - rewrite Hg'. reflexivity.
  - rewrite Hf'. exact Hf.
Qed.

Lemma make_heatmap_explains_top_class_witness :
  exists idx top,
    pred_index preds_3 = Ok idx
    /\ [1 # 10; 7 # 10; 7 # 10] !! idx = Some top
    /\ Forall (fun q => q <= top) [1 # 10; 7 # 10; 7 # 10]
    /\ (forall j q, (j < idx)%nat ->
          [1 # 10; 7 # 10; 7 # 10] !! j = Some q -> q < top)
    /\ make_heatmap tt toy_model "conv_last"
       = (grads ← or_raise NoGradient (tape_gradient toy_model "conv_last" tt idx);
          heatmap_of act_2x2x2 grads)
    /\ forall m' : model unit,
         has_layer m' "conv_last" = true ->
         forward m' "conv_last" tt = forward toy_model "conv_last" tt ->
         tape_gradient m' "conv_last" tt idx
         = tape_gradient toy_model "conv_last" tt idx ->
         make_heatmap tt m' "conv_last" = make_heatmap tt toy_model "conv_last".
Proof.
  apply (make_heatmap_explains_top_class toy_model tt "conv_last" act_2x2x2
           [1 # 10; 7 # 10; 7 # 10] []).
  - reflexivity.
  - reflexivity.
  - discriminate.
Defined.

(** Two equal scores: the earlier position is selected. *)
Example pred_index_tie : pred_index preds_3 = Ok 1%nat.
Proof. reflexivity. Qed.

(** ** One run of [make_heatmap]

    The layer exists, the forward pass gives an activation and predictions,
    a class is selected and its gradient is available. *)

Section Pass.

Context {img : Type} (m : model img) (x : img) (name : string).
Variables (act : tensor4) (preds : list (list fl)) (idx : nat) (grads : tensor4).

Hypothesis layer_exists : has_layer m name = true.
Hypothesis forward_pass : forward m name x = Some (act, preds).
Hypothesis class_selected : pred_index preds = Ok idx.
Hypothesis backward_pass : tape_gradient m name x idx = Some grads.

(** The method is then the numeric pipeline on the activation and that
    gradient. *)
Lemma make_heatmap_pass : make_heatmap x m name = heatmap_of act grads.
Proof.
  unfold make_heatmap. rewrite layer_exists, forward_pass. cbn.
  rewrite class_selected. cbn. rewrite backward_pass. reflexivity.
Qed.

Lemma make_heatmap_normalizes (raw : tensor) :
  raw_heatmap act (reduce_mean_012 grads) = Ok raw ->
  make_heatmap x m name = Ok (normalize raw).
Proof. intros Hraw. rewrite make_heatmap_pass. apply heatmap_of_raw, Hraw. Qed.


(** C2 (amended).  The heat map returned by [make_heatmap] is the raw heat map
    clamped at zero and divided entry by entry by the maximum of the raw,
    unclamped heat map.  When the raw heat map is finite and its maximum is
    not negative, this is the division by the maximum of the clamped array. *)
Theorem make_heatmap_divides_by_raw_max (raw : tensor) :
  raw_heatmap act (reduce_mean_012 grads) = Ok raw ->
  make_heatmap x m name = Ok (divide (maximum raw fzero) (reduce_max raw))
  /\ (Forall finite (data raw) -> ~ below_zero (reduce_max raw) ->
      make_heatmap x m name = Ok (normalize_spec raw)).
Proof.
  intros Hraw. rewrite (make_heatmap_normalizes raw Hraw).
  split; [reflexivity|].
  intros Hfin Hnn. f_equal. apply normalize_eq_spec; assumption.
Qed.

(** C10.  When every entry of the raw heat map is strictly negative, the
    divisor of the normalisation is the maximum of the raw heat map, which is
    negative, the clamped numerator is zero everywhere, and [make_heatmap]
    returns zeros, not NaN. *)
Theorem make_heatmap_all_negative (raw : tensor) :
  raw_heatmap act (reduce_mean_012 grads) = Ok raw ->
  Forall below_zero (data raw) ->
  (data raw <> [] -> below_zero (reduce_max raw))
  /\ Forall is_zero (data (maximum raw fzero))
  /\ exists out,
       make_heatmap x m name = Ok out
       /\ out = divide (maximum raw fzero) (reduce_max raw)
       /\ length (data out) = length (data raw)
       /\ Forall is_zero (data out).
Proof.
  intros Hraw Hneg.
  destruct (Forall_below_zero_inv _ Hneg) as (qs & Hqs & Hlt).
  assert (Hclamp : Forall (fun q => Qclamp q == 0) qs).
  { eapply Forall_impl; [exact Hlt|]. intros q Hq. cbv beta in Hq.
    destruct (Qclamp_spec q) as (_ & _ & H0 & _). apply H0. lra. }
  assert (Hmax : data raw <> [] -> exists mx, reduce_max raw = Fin mx /\ mx < 0).
  { intros Hne. unfold reduce_max. rewrite Hqs in *.
    destruct (reduce_max_list_Fin qs) as (mx & Hmx & Hin & _).
    - intros ->. apply Hne. reflexivity.
    - exists mx. split; [exact Hmx|].
      rewrite Forall_forall in Hlt. apply (Hlt mx). apply list_elem_of_In, Hin. }
  split; [|split].
  - intros Hne. destruct (Hmax Hne) as (mx & -> & Hmx). exact Hmx.
  - unfold maximum. cbn [data]. rewrite Hqs, map_fmaximum_zero.
    apply Forall_map, Forall_map. exact Hclamp.
  - exists (normalize raw). split; [|split; [reflexivity|split]].
    + apply make_heatmap_normalizes, Hraw.
    + rewrite data_normalize, length_map. reflexivity.
    + rewrite data_normalize.
      destruct (data raw) as [|v l] eqn:E; [constructor|].
      destruct Hmax as (mx & -> & Hmx); [discriminate|].
      rewrite Hqs. apply Forall_map, Forall_map.
      eapply Forall_impl; [exact Hclamp|]. intros q Hq. unfold compose.
      cbv beta in Hq. rewrite fmaximum_zero_Qclamp.
      rewrite fdiv_Fin_nonzero by lra. simpl.
      rewrite Qred_correct, Hq. unfold Qdiv. ring.
Qed.

(** C3.  When every entry of the gradient is zero, on a finite activation
    with at least one spatial position: the pooled vector is all zeros, the
    raw heat map is all zeros, its maximum is zero, and [make_heatmap] does
    not raise but returns a heat map each of whose entries is the quotient of
    zero by zero, NaN. *)
Theorem make_heatmap_zero_gradient :
  valid4 act -> wf_tensor4 grads -> same_shape4 act grads ->
  (0 < batch act)%nat -> (0 < height act)%nat -> (0 < width act)%nat ->
  Forall is_zero (data4 grads) ->
  Forall is_zero (reduce_mean_012 grads)
  /\ exists raw,
       raw_heatmap act (reduce_mean_012 grads) = Ok raw
       /\ Forall is_zero (data raw)
       /\ is_zero (reduce_max raw)
       /\ Forall is_zero (data (maximum raw fzero))
       /\ exists out,
            make_heatmap x m name = Ok out
            /\ out = divide (maximum raw fzero) (reduce_max raw)
            /\ length (data out) = (height act * width act)%nat
            /\ Forall (fun v => v = NaN) (data out).
Proof.
  intros [Hwa Hfa] Hwg (Hb & Hh & Hw & Hc) Hbp Hhp Hwp Hz.
  assert (Hpool : Forall is_zero (reduce_mean_012 grads)).
  { apply reduce_mean_012_zero; [exact Hwg|exact Hz|].
    rewrite <- Hb, <- Hh, <- Hw. nia. }
  split; [exact Hpool|].
  pose (raw := {| shape := filter (fun d => d <> 1%nat) [height act; width act; 1%nat];
                  data := raw_data act (reduce_mean_012 grads) |}).
  assert (Hraw : raw_heatmap act (reduce_mean_012 grads) = Ok raw).
  { rewrite raw_heatmap_unfold. destruct (batch act); [lia|].
    rewrite reduce_mean_012_length.
    destruct (decide (channels act = channels grads)); [reflexivity|contradiction]. }
  assert (Hrz : Forall is_zero (data raw)).
  { apply (raw_data_Forall finite is_zero); [exact Hfa|].
    intros row Hrow. apply dot_finite_zero; assumption. }
  assert (Hne : data raw <> []).
  { intros E. apply (f_equal length) in E. cbn [raw data] in E.
    rewrite raw_data_length in E. simpl in E. nia. }
  assert (Hmz : is_zero (reduce_max raw)).
  { apply reduce_max_list_zero; assumption. }
  assert (Hcz : Forall is_zero (data (maximum raw fzero))).
  { unfold maximum. cbn [data]. apply Forall_map.
    eapply Forall_impl; [exact Hrz|]. intros v Hv. apply fmaximum_zero_is_zero, Hv. }
  exists raw. repeat (split; [assumption|]).
  exists (normalize raw). split; [|split; [reflexivity|split]].
  - apply make_heatmap_normalizes, Hraw.
  - rewrite data_normalize, length_map. apply raw_data_length.
  - unfold normalize, divide. cbn [data]. apply Forall_map.
    eapply Forall_impl; [exact Hcz|]. intros v Hv. unfold compose.
    apply fdiv_zero_zero; assumption.
Qed.

(** C7 (amended).  For an activation of shape (batch, height, width,
    channels) with a non-empty batch, [make_heatmap] returns a well-formed
    array with height * width entries whose shape is (height, width) with
    every axis of size 1 removed: exactly (height, width) when neither is 1,
    whatever the input image. *)
Theorem make_heatmap_shape :
  same_shape4 act grads -> (0 < batch act)%nat ->
  exists out,
    make_heatmap x m name = Ok out
    /\ wf_tensor out
    /\ length (data out) = (height act * width act)%nat
    /\ shape out = filter (fun d => d <> 1%nat) [height act; width act]
    /\ (height act <> 1%nat -> width act <> 1%nat ->
        shape out = [height act; width act]).
Proof.
  intros (_ & _ & _ & Hc) Hb.
  rewrite make_heatmap_pass.
  unfold heatmap_of. rewrite raw_heatmap_unfold.
  destruct (batch act); [lia|]. rewrite reduce_mean_012_length.
  destruct (decide (channels act = channels grads)); [|contradiction].
  eexists. split; [reflexivity|]. cbn [mret result_ret].
  assert (Hlen : forall t : tensor,
             data t = raw_data act (reduce_mean_012 grads) ->
             length (data (normalize t)) = (height act * width act)%nat).
  { intros t Ht. rewrite data_normalize, length_map, Ht. apply raw_data_length. }
  split; [|split; [|split]].
  - unfold wf_tensor. rewrite Hlen by reflexivity.
    rewrite shape_normalize. cbn [shape].
    rewrite numel_squeeze. unfold numel. cbn [foldr]. lia.
  - apply Hlen. reflexivity.
  - rewrite shape_normalize. apply squeeze_drops_channel.
  - intros Hh Hw. rewrite shape_normalize. apply squeeze_spatial; assumption.
Qed.

End Pass.


Lemma make_heatmap_divides_by_raw_max_witness :
  make_heatmap tt toy_model "conv_last"
  = Ok (divide (maximum raw_opposed fzero) (reduce_max raw_opposed))
  /\ make_heatmap tt toy_model "conv_last" = Ok (normalize_spec raw_opposed).
Proof.
  destruct (make_heatmap_divides_by_raw_max toy_model tt "conv_last" act_2x2x2
              preds_3 1%nat grads_opposed eq_refl eq_refl eq_refl eq_refl
              raw_opposed)
    as [H1 H2].
  - vm_compute. reflexivity.
  - split; [exact H1|]. apply H2.
    + repeat constructor.
    + vm_compute. intros H. discriminate H.
Defined.

(** C2, as stated, fails: when every entry of the raw heat map is negative the
    code divides zero by the negative raw maximum and returns zeros, while
    the division by the maximum of the clamped array is 0/0. *)
Lemma make_heatmap_not_normalize_spec :
  raw_heatmap act_2x2x2 (reduce_mean_012 grads_down) = Ok raw_down
  /\ make_heatmap tt toy_model_neg "conv_last"
     = Ok (mkT [2%nat; 2%nat] [Fin 0; Fin 0; Fin 0; Fin 0])
  /\ normalize_spec raw_down = mkT [2%nat; 2%nat] [NaN; NaN; NaN; NaN]
  /\ make_heatmap tt toy_model_neg "conv_last" <> Ok (normalize_spec raw_down).
Proof.
  repeat split; try (vm_compute; reflexivity).
  vm_compute. intros H. discriminate H.
Qed.

Lemma make_heatmap_all_negative_witness :
  exists out,
    make_heatmap tt toy_model_neg "conv_last" = Ok out
    /\ length (data out) = 4%nat
    /\ Forall is_zero (data out).
Proof.
  destruct (make_heatmap_all_negative toy_model_neg tt "conv_last" act_2x2x2
              preds_3b 2%nat grads_down eq_refl eq_refl eq_refl eq_refl raw_down)
    as (_ & _ & out & Hout & _ & Hlen & Hz).
  - vm_compute. reflexivity.
  - repeat constructor.
  - exists out. split; [exact Hout|]. split; [exact Hlen|exact Hz].
Defined.

Lemma make_heatmap_zero_gradient_witness :
  Forall is_zero (reduce_mean_012 grads_zero)
  /\ exists raw,
       raw_heatmap act_2x2x2 (reduce_mean_012 grads_zero) = Ok raw
       /\ Forall is_zero (data raw)
       /\ is_zero (reduce_max raw)
       /\ Forall is_zero (data (maximum raw fzero))
       /\ exists out,
            make_heatmap tt toy_model_flat "conv_last" = Ok out
            /\ out = divide (maximum raw fzero) (reduce_max raw)
            /\ length (data out) = 4%nat
            /\ Forall (fun v => v = NaN) (data out).
Proof.
  apply (make_heatmap_zero_gradient toy_model_flat tt "conv_last" act_2x2x2
           preds_3c 0%nat grads_zero eq_refl eq_refl eq_refl eq_refl).
  - split; [reflexivity|]. repeat constructor.
  - reflexivity.
  - repeat split.
  - cbn; lia.
  - cbn; lia.
  - cbn; lia.
  - repeat constructor.
Defined.

Lemma make_heatmap_shape_witness :
  exists out,
    make_heatmap tt toy_model "conv_last" = Ok out
    /\ wf_tensor out
    /\ length (data out) = 4%nat
    /\ shape out = filter (fun d => d <> 1%nat) [2%nat; 2%nat]
    /\ (2%nat <> 1%nat -> 2%nat <> 1%nat -> shape out = [2%nat; 2%nat]).
Proof.
  apply (make_heatmap_shape toy_model tt "conv_last" act_2x2x2 preds_3 1%nat
           grads_opposed eq_refl eq_refl eq_refl eq_refl).
  - repeat split.
  - cbn. lia.
Defined.

(** C7, as stated, fails: on an activation of height 1 and width 3 the
    result has the single axis of size 3, it is not a 1 x 3 array. *)
Lemma make_heatmap_row_is_one_dimensional :
  height act_1x3x1 = 1%nat /\ width act_1x3x1 = 3%nat
  /\ exists out,
       make_heatmap tt toy_model_row "conv_last" = Ok out
       /\ shape out = [3%nat]
       /\ length (shape out) <> 2%nat
       /\ shape out <> [height act_1x3x1; width act_1x3x1].
Proof.
  split; [reflexivity|]. split; [reflexivity|].
  exists (mkT [3%nat] [Fin (1 # 4); Fin (1 # 2); Fin 1]).
  split; [vm_compute; reflexivity|].
  split; [reflexivity|]. split; cbn; intros H; discriminate H.
Qed.

Example toy_heatmap :
  make_heatmap tt toy_model "conv_last"
  = Ok (mkT [2%nat; 2%nat] [Fin 0; Fin 0; Fin 1; Fin (1 # 5)]).
Proof. vm_compute. reflexivity. Qed.

Example toy_flat_heatmap :
  make_heatmap tt toy_model_flat "conv_last"
  = Ok (mkT [2%nat; 2%nat] [NaN; NaN; NaN; NaN]).
Proof. vm_compute. reflexivity. Qed.

(** ** The overlay renderer *)

Example dirname_save_path :
  dirname "data/save_fig/fig_saved.png" = "data/save_fig"%string.
Proof. reflexivity. Qed.

Lemma length_grid {A : Type} (f : nat -> nat -> A) (l : list nat) (wd : nat) :
  length (flat_map (fun i => map (f i) (seq 0 wd)) l) = (length l * wd)%nat.
Proof.
  induction l as [|i l IH]; [reflexivity|].
  cbn [flat_map]. rewrite length_app, length_map, length_seq, IH. reflexivity.
Qed.

Lemma cv2_resize_ok (interp : tensor2 -> nat * nat -> nat -> nat -> fl)
    (src : tensor2) (wd ht : nat) :
  (rows src * cols src)%nat <> 0%nat ->
  exists resized,
    cv2_resize interp src (wd, ht) = Ok resized
    /\ rows resized = ht /\ cols resized = wd
    /\ length (data2 resized) = (ht * wd)%nat.
Proof.
  intros Hne. unfold cv2_resize. destruct (decide _) as [E|_]; [contradiction|].
  eexists. split; [reflexivity|]. cbn [rows cols data2 fst snd].
  split; [reflexivity|]. split; [reflexivity|].
  rewrite length_grid, length_seq. reflexivity.
Qed.

Lemma cv2_resize_empty (interp : tensor2 -> nat * nat -> nat -> nat -> fl)
    (src : tensor2) (dsize : nat * nat) :
  (rows src * cols src)%nat = 0%nat -> cv2_resize interp src dsize = Raise ResizeError.
Proof.
  intros E. unfold cv2_resize. destruct (decide _); [reflexivity|contradiction].
Qed.

Lemma axes_savefig {picture : Type} (fname : string) (w : world picture) :
  axes (savefig fname w).1 = axes w.
Proof. unfold savefig. destruct (decide _); reflexivity. Qed.

(** C8.  Whatever the size of the heat map and whatever the base picture,
    the overlay drawn over the base picture is the heat map resized to 64 x 64;
    a heat map without pixels is refused by the resize, and then no overlay
    is drawn at all. *)
Theorem image_resizes_heatmap {picture : Type}
    (interp : tensor2 -> nat * nat -> nat -> nat -> fl)
    (im : picture) (hm : tensor2) (w : world picture) :
  ((rows hm * cols hm)%nat <> 0%nat ->
   exists resized,
     cv2_resize interp hm (64%nat, 64%nat) = Ok resized
     /\ rows resized = 64%nat /\ cols resized = 64%nat
     /\ length (data2 resized) = (64 * 64)%nat
     /\ axes (image interp im hm w).1
        = axes w ++ [mkDrawn (Picture im) (Some "gray"%string) None;
                     mkDrawn (Scalars resized) None (Some (4 # 10))])
  /\ ((rows hm * cols hm)%nat = 0%nat ->
      (image interp im hm w).2 = Raise ResizeError
      /\ axes (image interp im hm w).1
         = axes w ++ [mkDrawn (Picture im) (Some "gray"%string) None]).
Proof.
  split.
  - intros Hne.
    destruct (cv2_resize_ok interp hm 64 64 Hne) as (resized & Hr & Hrows & Hcols & Hlen).
    exists resized. repeat (split; [assumption|]).
    unfold image. rewrite Hr, axes_savefig. cbn [imshow axes].
    rewrite <- app_assoc. reflexivity.
  - intros E. unfold image. rewrite (cv2_resize_empty interp hm _ E).
    split; reflexivity.
Qed.

Lemma image_resizes_heatmap_witness :
  exists resized,
    cv2_resize corner_pixel heat_7x7 (64%nat, 64%nat) = Ok resized
    /\ rows resized = 64%nat /\ cols resized = 64%nat
    /\ length (data2 resized) = (64 * 64)%nat
    /\ axes (image corner_pixel tt heat_7x7 world_ready).1
       = axes world_ready
         ++ [mkDrawn (Picture tt) (Some "gray"%string) None;
             mkDrawn (Scalars resized) None (Some (4 # 10))].
Proof.
  apply (image_resizes_heatmap corner_pixel tt heat_7x7 world_ready).
  cbn. lia.
Defined.

Lemma savefig_outcome {picture : Type} (w : world picture) :
  let r := savefig "data/save_fig/fig_saved.png" w in
  axes r.1 = axes w
  /\ dirs r.1 = dirs w
  /\ ("data/save_fig"%string ∈ dirs w ->
      r.2 = Ok tt
      /\ files r.1 = <[ "data/save_fig/fig_saved.png"%string := axes w ]> (files w))
  /\ ("data/save_fig"%string ∉ dirs w ->
      r.2 = Raise FileNotFound /\ files r.1 = files w).
Proof.
  unfold savefig. rewrite dirname_save_path.
  destruct (decide _) as [Hin|Hout]; cbn [fst snd axes dirs files];
    repeat split; auto; contradiction.
Qed.

(** One call of [image]: the directories are left as they were; a call that
    returns has written the figure to the fixed path and nowhere else; a call
    that raises has written nothing; the call raises when the directory is
    missing and returns when it exists and the heat map has pixels. *)
Lemma image_outcome {picture : Type}
    (interp : tensor2 -> nat * nat -> nat -> nat -> fl)
    (im : picture) (hm : tensor2) (w : world picture) :
  let r := image interp im hm w in
  dirs r.1 = dirs w
  /\ (r.2 = Ok tt ->
      files r.1 = <[ "data/save_fig/fig_saved.png"%string := axes r.1 ]> (files w))
  /\ (forall e, r.2 = Raise e -> files r.1 = files w)
  /\ ("data/save_fig"%string ∉ dirs w ->
      r.2 = Raise (if decide ((rows hm * cols hm)%nat = 0%nat)
                   then ResizeError else FileNotFound))
  /\ ("data/save_fig"%string ∈ dirs w -> (rows hm * cols hm)%nat <> 0%nat ->
      r.2 = Ok tt).
Proof.
  unfold image. destruct (decide ((rows hm * cols hm)%nat = 0%nat)) as [E|E].
  - rewrite (cv2_resize_empty interp hm _ E). cbn [fst snd imshow dirs files].
    repeat split; auto; try discriminate. intros _ Hne. contradiction.
  - destruct (cv2_resize_ok interp hm 64 64 E) as (resized & -> & _).
    set (w2 := imshow (Scalars resized) None (Some (4 # 10))
                 (imshow (Picture im) (Some "gray"%string) None w)).
    destruct (savefig_outcome w2) as (Hax & Hdirs & Hin & Hout).
    cbv zeta in *. change (dirs w2) with (dirs w) in *.
    change (files w2) with (files w) in *.
    split; [exact Hdirs|].
    destruct (decide ("data/save_fig"%string ∈ dirs w)) as [Hd|Hd].
    + destruct (Hin Hd) as [Hr Hf]. rewrite Hr, Hf, Hax.
      repeat split; auto; try discriminate. intros Hn. contradiction.
    + destruct (Hout Hd) as [Hr Hf]. rewrite Hr, Hf.
      repeat split; auto; try discriminate. intros Hn. contradiction.
Qed.

(** C9.  Every call of [image] that returns has written its figure to
    data/save_fig/fig_saved.png, replacing what was there, and to no other
    path; no directory is ever created; the call raises when the directory
    data/save_fig does not exist; and a second call, whatever its inputs,
    writes to the same path and adds no file. *)
Theorem image_saves_to_fixed_path {picture : Type}
    (interp : tensor2 -> nat * nat -> nat -> nat -> fl)
    (im : picture) (hm : tensor2) (w : world picture) :
  dirs (image interp im hm w).1 = dirs w
  /\ ((image interp im hm w).2 = Ok tt ->
      files (image interp im hm w).1
      = <[ "data/save_fig/fig_saved.png"%string := axes (image interp im hm w).1 ]>
          (files w))
  /\ (forall e, (image interp im hm w).2 = Raise e ->
        files (image interp im hm w).1 = files w)
  /\ ("data/save_fig"%string ∉ dirs w ->
      (image interp im hm w).2
      = Raise (if decide ((rows hm * cols hm)%nat = 0%nat)
               then ResizeError else FileNotFound))
  /\ ("data/save_fig"%string ∈ dirs w -> (rows hm * cols hm)%nat <> 0%nat ->
      (image interp im hm w).2 = Ok tt)
  /\ forall (im2 : picture) (hm2 : tensor2),
       (image interp im hm w).2 = Ok tt ->
       (image interp im2 hm2 (image interp im hm w).1).2 = Ok tt ->
       files (image interp im2 hm2 (image interp im hm w).1).1
       = <[ "data/save_fig/fig_saved.png"%string :=
              axes (image interp im2 hm2 (image interp im hm w).1).1 ]> (files w)
       /\ dom (files (image interp im2 hm2 (image interp im hm w).1).1)
          = dom (files (image interp im hm w).1).
Proof.
  destruct (image_outcome interp im hm w) as (Hd & Hok & Herr & Hmiss & Hrun).
  cbv zeta in Hd, Hok, Herr, Hmiss, Hrun.
  repeat (split; [assumption|]).
  intros im2 hm2 Hr Hr2.
  destruct (image_outcome interp im2 hm2 (image interp im hm w).1) as (_ & Hok2 & _).
  cbv zeta in Hok2. rewrite (Hok2 Hr2), (Hok Hr). split.
  - apply insert_insert_eq.
  - rewrite !dom_insert_L. apply set_eq. intros p.
    rewrite !elem_of_union. tauto.
Qed.

Lemma image_saves_to_fixed_path_witness :
  first_call.2 = Ok tt
  /\ second_call.2 = Ok tt
  /\ files first_call.1
     = <[ "data/save_fig/fig_saved.png"%string := axes first_call.1 ]> ∅
  /\ files second_call.1
     = <[ "data/save_fig/fig_saved.png"%string := axes second_call.1 ]> ∅
  /\ dom (files second_call.1) = dom (files first_call.1).
Proof.
  destruct (image_saves_to_fixed_path corner_pixel tt heat_2x2 world_ready)
    as (Hd & Hok & _ & _ & Hrun & Htwice).
  fold first_call in Hd, Hok, Hrun, Htwice.
  assert (Hr : first_call.2 = Ok tt).
  { apply Hrun; [apply elem_of_singleton; reflexivity|cbn; lia]. }
  destruct (image_saves_to_fixed_path corner_pixel tt heat_7x7 first_call.1)
    as (_ & _ & _ & _ & Hrun2 & _).
  fold second_call in Hrun2.
  assert (Hr2 : second_call.2 = Ok tt).
  { apply Hrun2; [rewrite Hd; apply elem_of_singleton; reflexivity|cbn; lia]. }
  destruct (Htwice tt heat_7x7 Hr Hr2) as [Hf2 Hdom].
  fold second_call in Hf2, Hdom.
  repeat split; auto.
Defined.

(** Without the directory the call raises and the files are untouched. *)
Example image_without_directory :
  (image corner_pixel tt heat_2x2 world_bare).2 = Raise FileNotFound
  /\ files (image corner_pixel tt heat_2x2 world_bare).1 = ∅
  /\ dirs (image corner_pixel tt heat_2x2 world_bare).1 = ∅.
Proof.
  destruct (image_outcome corner_pixel tt heat_2x2 world_bare)
    as (Hd & _ & Herr & Hmiss & _).
  assert (Hr : (image corner_pixel tt heat_2x2 world_bare).2 = Raise FileNotFound).
  { apply Hmiss. apply not_elem_of_empty. }
  split; [exact Hr|]. split; [exact (Herr _ Hr)|exact Hd].
Qed.

(** * Further properties of the two methods *)

(** ** What the normalisation does to a finite heat map *)

(** The entry of the normalised heat map at a position, when the maximum of
    the raw heat map is not zero. *)
Lemma normalize_lookup_Fin (raw : tensor) (mx : Q) (i : nat) (q : Q) :
  reduce_max raw = Fin mx -> ~ mx == 0 ->
  data raw !! i = Some (Fin q) ->
  data (normalize raw) !! i = Some (Fin (Qred (Qclamp q / mx))).
Proof.
  intros Hmx Hnz Hq. rewrite data_normalize, list_lookup_fmap, Hq, Hmx.
  cbn [fmap option_fmap option_map]. rewrite fmaximum_zero_Qclamp.
  rewrite fdiv_Fin_nonzero by exact Hnz. reflexivity.
Qed.



Section Heat.

Context {img : Type} (m : model img) (x : img) (name : string).
Variables (act : tensor4) (preds : list (list fl)) (idx : nat) (grads : tensor4).
Variable raw : tensor.

Hypothesis layer_exists : has_layer m name = true.
Hypothesis forward_pass : forward m name x = Some (act, preds).
Hypothesis class_selected : pred_index preds = Ok idx.
Hypothesis backward_pass : tape_gradient m name x idx = Some grads.
Hypothesis act_valid : valid4 act.
Hypothesis grads_valid : valid4 grads.
Hypothesis one_shape : same_shape4 act grads.
Hypothesis raw_is : raw_heatmap act (reduce_mean_012 grads) = Ok raw.

Lemma heat_returns : make_heatmap x m name = Ok (normalize raw).
Proof.
  apply (make_heatmap_normalizes m x name act preds idx grads); assumption.
Qed.




(** X3.  When the maximum of the raw heat map is positive, every position
    whose raw value is zero or negative is exactly 0 in the returned heat
    map. *)
Theorem make_heatmap_discards_negative_evidence (mx : Q) :
  reduce_max raw = Fin mx -> 0 < mx ->
  exists out,
    make_heatmap x m name = Ok out
    /\ forall i q, data raw !! i = Some (Fin q) -> q <= 0 ->
                   data out !! i = Some (Fin 0).
Proof.
  intros Hmx Hpos. exists (normalize raw). split; [exact heat_returns|].
  intros i q Hq Hle.
  rewrite (normalize_lookup_Fin raw mx i q Hmx) by (assumption || lra).
  do 2 f_equal. change 0 with (Qred 0). apply Qred_complete.
  destruct (Qclamp_spec q) as (_ & _ & H0 & _). rewrite (H0 Hle).
  field. lra.
Qed.


End Heat.



Lemma make_heatmap_discards_negative_evidence_witness :
  exists out,
    make_heatmap tt toy_model "conv_last" = Ok out
    /\ forall i q, data raw_opposed !! i = Some (Fin q) -> q <= 0 ->
                   data out !! i = Some (Fin 0).
Proof.
  eapply (make_heatmap_discards_negative_evidence toy_model tt "conv_last"
           act_2x2x2 preds_3 1%nat grads_opposed raw_opposed
           eq_refl eq_refl eq_refl eq_refl).
  - vm_compute. reflexivity.
  - reflexivity.
  - reflexivity.
Defined.


(** ** The size of the gradient does not matter *)























(** ** When the methods raise *)



(** X7.  [make_heatmap] returns exactly when the layer exists, the forward
    pass and the class selection succeed, the gradient is available, the
    batch is not empty and the gradient has as many channels as the
    activation.  No value in the tensors makes it raise: a zero maximum, a
    NaN or an infinity all end in a returned heat map. *)
Theorem make_heatmap_returns_iff {img : Type} (m : model img) (x : img)
    (name : string) :
  (exists out, make_heatmap x m name = Ok out)
  <-> (has_layer m name = true
       /\ exists act preds idx grads,
            forward m name x = Some (act, preds)
            /\ pred_index preds = Ok idx
            /\ tape_gradient m name x idx = Some grads
            /\ (0 < batch act)%nat
            /\ channels act = channels grads).
Proof.
  split.
  - intros [out H]. unfold make_heatmap in H.
    destruct (has_layer m name); [|discriminate H]. split; [reflexivity|].
    destruct (forward m name x) as [[act preds]|] eqn:Hf; [|discriminate H].
    cbn in H. destruct (pred_index preds) as [idx|e] eqn:Hi; [|discriminate H].
    cbn in H.
    destruct (tape_gradient m name x idx) as [grads|] eqn:Hg; [|discriminate H].
    cbn in H. exists act, preds, idx, grads.
    split; [reflexivity|]. split; [exact Hi|]. split; [exact Hg|].
    unfold heatmap_of in H. rewrite raw_heatmap_unfold in H.
    destruct (batch act) as [|n] eqn:Eb; [discriminate H|].
    rewrite reduce_mean_012_length in H.
    destruct (decide (channels act = channels grads)) as [Hc|Hc]; [|discriminate H].
    split; [apply Nat.lt_0_succ|exact Hc].
  - intros (Hl & act & preds & idx & grads & Hf & Hi & Hg & Hb & Hc).
    rewrite (make_heatmap_pass m x name act preds idx grads) by assumption.
    unfold heatmap_of. rewrite raw_heatmap_unfold.
    destruct (batch act); [lia|]. rewrite reduce_mean_012_length.
    destruct (decide (channels act = channels grads)); [|contradiction].
    eexists. reflexivity.
Qed.

Lemma make_heatmap_returns_iff_witness :
  exists out, make_heatmap tt toy_model_flat "conv_last" = Ok out.
Proof.
  apply (make_heatmap_returns_iff toy_model_flat tt "conv_last").
  split; [reflexivity|].
  exists act_2x2x2, preds_3c, 0%nat, grads_zero.
  repeat split; cbn; lia.
Defined.

(** ** Which entries of the tensors are read *)

Lemma spatial_position (p h w : nat) :
  (p < h * w)%nat ->
  exists i j, (i < h)%nat /\ (j < w)%nat /\ p = (i * w + j)%nat.
Proof.
  intros Hp. assert (Hw : w <> 0%nat) by (intros ->; lia).
  exists (p / w)%nat, (p mod w)%nat. split; [|split].
  - apply Nat.Div0.div_lt_upper_bound. lia.
  - apply Nat.mod_upper_bound, Hw.
  - rewrite (Nat.div_mod_eq p w) at 1. lia.
Qed.

(** The raw heat map, row by row, in terms of [get4] on the first batch
    element. *)
Lemma raw_data_rows (a : tensor4) (v : list fl) :
  wf_tensor4 a -> (0 < batch a)%nat ->
  raw_data a v
  = map (fun p => dot (map (fun k => entry (data4 a) (p * channels a + k))
                           (seq 0 (channels a))) v)
        (seq 0 (height a * width a)).
Proof.
  intros Hwf Hb. unfold raw_data. apply map_ext_in. intros p Hp.
  apply in_seq in Hp. rewrite take_drop_row; [reflexivity| |].
  - nia.
  - rewrite Hwf. nia.
Qed.

(** X8.  Only the first batch element of the activation is read: two
    activations of one shape that agree on their first batch element give the
    same heat map with any gradient, whatever the other batch elements
    hold. *)
Theorem heatmap_reads_first_batch_element_only (a a' grads : tensor4) :
  wf_tensor4 a -> wf_tensor4 a' -> same_shape4 a a' ->
  (forall i j k, (i < height a)%nat -> (j < width a)%nat ->
                 (k < channels a)%nat -> get4 a 0 i j k = get4 a' 0 i j k) ->
  heatmap_of a grads = heatmap_of a' grads.
Proof.
  intros Hwf Hwf' (Hb & Hh & Hw & Hc) Hsame.
  unfold heatmap_of. rewrite !raw_heatmap_unfold, <- Hb, <- Hh, <- Hw, <- Hc.
  destruct (batch a) as [|n] eqn:Eb; [reflexivity|].
  destruct (decide (channels a = length (reduce_mean_012 grads))); [|reflexivity].
  cbn [mbind result_bind mret result_ret]. do 3 f_equal.
  rewrite (raw_data_rows a) by (assumption || lia).
  rewrite (raw_data_rows a') by (assumption || lia).
  rewrite <- Hh, <- Hw, <- Hc.
  apply map_ext_in. intros p Hp. apply in_seq in Hp. f_equal.
  apply map_ext_in. intros k Hk. apply in_seq in Hk.
  destruct (spatial_position p (height a) (width a)) as (i & j & Hi & Hj & ->); [lia|].
  specialize (Hsame i j k Hi Hj ltac:(lia)). unfold get4 in Hsame.
  rewrite <- Hh, <- Hw, <- Hc, !Nat.mul_0_l, !Nat.add_0_l in Hsame. exact Hsame.
Qed.

Lemma heatmap_reads_first_batch_element_only_witness :
  heatmap_of act_batch2 grads_batch2 = heatmap_of act_batch2' grads_batch2.
Proof.
  apply (heatmap_reads_first_batch_element_only act_batch2 act_batch2' grads_batch2).
  - reflexivity.
  - reflexivity.
  - repeat split.
  - intros i j k Hi Hj Hk. cbn in Hi, Hj, Hk.
    assert (i = 0%nat) as -> by lia. assert (k = 0%nat) as -> by lia.
    destruct j as [|[|j]]; [reflexivity|reflexivity|lia].
Defined.

(** ** Pooling a gradient that is constant on a channel *)





(** ** The figure across calls of [image] *)

(** The two pictures one call draws. *)
Lemma image_when_directory_exists {picture : Type}
    (interp : tensor2 -> nat * nat -> nat -> nat -> fl)
    (im : picture) (hm resized : tensor2) (w : world picture) :
  "data/save_fig"%string ∈ dirs w ->
  cv2_resize interp hm (64%nat, 64%nat) = Ok resized ->
  image interp im hm w
  = ({| axes := axes w ++ [mkDrawn (Picture im) (Some "gray"%string) None;
                           mkDrawn (Scalars resized) None (Some (4 # 10))];
        dirs := dirs w;
        files :=
          <[ "data/save_fig/fig_saved.png"%string :=
               axes w ++ [mkDrawn (Picture im) (Some "gray"%string) None;
                          mkDrawn (Scalars resized) None (Some (4 # 10))] ]>
            (files w) |},
     Ok tt).
Proof.
  intros Hd Hr. unfold image. rewrite Hr. unfold savefig.
  rewrite dirname_save_path. cbn [imshow dirs axes files].
  destruct (decide _) as [_|Hn]; [|contradiction].
  rewrite <- app_assoc. reflexivity.
Qed.

Lemma image_when_directory_missing {picture : Type}
    (interp : tensor2 -> nat * nat -> nat -> nat -> fl)
    (im : picture) (hm resized : tensor2) (w : world picture) :
  "data/save_fig"%string ∉ dirs w ->
  cv2_resize interp hm (64%nat, 64%nat) = Ok resized ->
  image interp im hm w
  = ({| axes := axes w ++ [mkDrawn (Picture im) (Some "gray"%string) None;
                           mkDrawn (Scalars resized) None (Some (4 # 10))];
        dirs := dirs w; files := files w |},
     Raise FileNotFound).
Proof.
  intros Hd Hr. unfold image. rewrite Hr. unfold savefig.
  rewrite dirname_save_path. cbn [imshow dirs axes files].
  destruct (decide _) as [Hy|_]; [contradiction|].
  unfold imshow. cbn [axes dirs files]. rewrite <- app_assoc. reflexivity.
Qed.

(** X10.  The figure is never cleared.  After two calls in a row, the saved
    file shows what was on the figure before, then the base picture and the
    overlay of the first call, then those of the second call: the second
    file still contains the first call's pictures. *)
Theorem image_twice_keeps_first_pictures {picture : Type}
    (interp : tensor2 -> nat * nat -> nat -> nat -> fl)
    (im im2 : picture) (hm hm2 : tensor2) (w : world picture) :
  "data/save_fig"%string ∈ dirs w ->
  (rows hm * cols hm)%nat <> 0%nat ->
  (rows hm2 * cols hm2)%nat <> 0%nat ->
  exists r1 r2,
    cv2_resize interp hm (64%nat, 64%nat) = Ok r1
    /\ cv2_resize interp hm2 (64%nat, 64%nat) = Ok r2
    /\ (image interp im2 hm2 (image interp im hm w).1).2 = Ok tt
    /\ files (image interp im2 hm2 (image interp im hm w).1).1
         !! "data/save_fig/fig_saved.png"%string
       = Some (axes w
               ++ [mkDrawn (Picture im) (Some "gray"%string) None;
                   mkDrawn (Scalars r1) None (Some (4 # 10));
                   mkDrawn (Picture im2) (Some "gray"%string) None;
                   mkDrawn (Scalars r2) None (Some (4 # 10))]).
Proof.
  intros Hd H1 H2.
  destruct (cv2_resize_ok interp hm 64 64 H1) as (r1 & Hr1 & _).
  destruct (cv2_resize_ok interp hm2 64 64 H2) as (r2 & Hr2 & _).
  exists r1, r2. split; [exact Hr1|]. split; [exact Hr2|].
  rewrite (image_when_directory_exists interp im hm r1 w Hd Hr1). cbn [fst].
  erewrite image_when_directory_exists; [|exact Hd|exact Hr2].
  cbn [fst snd files axes]. split; [reflexivity|].
  rewrite lookup_insert_eq, <- app_assoc. reflexivity.
Qed.

Lemma image_twice_keeps_first_pictures_witness :
  exists r1 r2,
    cv2_resize corner_pixel heat_2x2 (64%nat, 64%nat) = Ok r1
    /\ cv2_resize corner_pixel heat_7x7 (64%nat, 64%nat) = Ok r2
    /\ second_call.2 = Ok tt
    /\ files second_call.1 !! "data/save_fig/fig_saved.png"%string
       = Some (axes world_ready
               ++ [mkDrawn (Picture tt) (Some "gray"%string) None;
                   mkDrawn (Scalars r1) None (Some (4 # 10));
                   mkDrawn (Picture tt) (Some "gray"%string) None;
                   mkDrawn (Scalars r2) None (Some (4 # 10))]).
Proof.
  apply (image_twice_keeps_first_pictures corner_pixel tt tt heat_2x2 heat_7x7
           world_ready).
  - apply elem_of_singleton. reflexivity.
  - cbn. lia.
  - cbn. lia.
Defined.

(** X11.  A call that fails because the directory is missing has already
    drawn: the base picture and the resized overlay stay on the figure, and
    nothing is written. *)
Theorem image_failure_leaves_pictures {picture : Type}
    (interp : tensor2 -> nat * nat -> nat -> nat -> fl)
    (im : picture) (hm : tensor2) (w : world picture) :
  "data/save_fig"%string ∉ dirs w ->
  (rows hm * cols hm)%nat <> 0%nat ->
  exists resized,
    cv2_resize interp hm (64%nat, 64%nat) = Ok resized
    /\ (image interp im hm w).2 = Raise FileNotFound
    /\ axes (image interp im hm w).1
       = axes w ++ [mkDrawn (Picture im) (Some "gray"%string) None;
                    mkDrawn (Scalars resized) None (Some (4 # 10))]
    /\ files (image interp im hm w).1 = files w
    /\ dirs (image interp im hm w).1 = dirs w.
Proof.
  intros Hd Hp.
  destruct (cv2_resize_ok interp hm 64 64 Hp) as (resized & Hr & _).
  exists resized. split; [exact Hr|].
  rewrite (image_when_directory_missing interp im hm resized w Hd Hr).
  repeat split.
Qed.

Lemma image_failure_leaves_pictures_witness :
  exists resized,
    cv2_resize corner_pixel heat_2x2 (64%nat, 64%nat) = Ok resized
    /\ (image corner_pixel tt heat_2x2 world_bare).2 = Raise FileNotFound
    /\ axes (image corner_pixel tt heat_2x2 world_bare).1
       = axes world_bare
         ++ [mkDrawn (Picture tt) (Some "gray"%string) None;
             mkDrawn (Scalars resized) None (Some (4 # 10))]
    /\ files (image corner_pixel tt heat_2x2 world_bare).1 = files world_bare
    /\ dirs (image corner_pixel tt heat_2x2 world_bare).1 = dirs world_bare.
Proof.
  apply (image_failure_leaves_pictures corner_pixel tt heat_2x2 world_bare).
  - apply not_elem_of_empty.
  - cbn. lia.
Defined.
